(** * Verification of [python/triton/stdlib.py]

    A shallow embedding of the standard library of tile helpers:
    the numeric helpers [abs], [cdiv], [minimum], [maximum], the graph
    builder [softmax], the shape functions [ravel] and [zeros_like],
    the index remap [swizzle2d] and the [export] decorator with the
    module-level list [__all__].

    Integer operands are Python integers (unbounded, so [Z]); [//] and
    [%] are floor division and its remainder, which raise
    [ZeroDivisionError] on a zero divisor.  Failure is threaded through
    the error monad [sum exn]; the module-level list is threaded
    through a state monad. *)

From Stdlib Require Import ZArith Lia List String Permutation.
From Stdlib Require Import QArith Qround.
From ExtLib Require Import Structures.Monad Structures.MonadState Structures.MonadExc.
From ExtLib Require Import Data.Monads.StateMonad Data.Monads.EitherMonad.
Import ListNotations.
Import MonadNotation.
Local Open Scope monad_scope.
Local Open Scope Z_scope.

(** * Part I: the embedding *)

(** ** Failures *)

(** [ZeroDivisionError] is what the integer primitives raise, and
    [NameError] is what Python raises when a body uses a name that is
    bound nowhere.  [InvalidArgument] is the failure kind the
    specification names for the index remap; it is part of the type so
    that statements about it can be written, and no definition below
    constructs it, as no line of [stdlib.py] raises it. *)
Inductive exn : Type :=
| ZeroDivisionError
| InvalidArgument
| NameError (name : string).

Definition result : Type -> Type := sum exn.

(** ** Global names *)

(** The names that the module body binds, top to bottom: the two
    imports, the two aliases, [__all__], and one name per [def]. *)
Definition module_names : list string :=
  [ "triton"; "tlcore"; "tljit"; "constexpr"; "__all__"; "export";
    "abs"; "cdiv"; "minimum"; "maximum"; "_add_math_1arg_docstr";
    "sigmoid"; "softmax"; "ravel"; "swizzle2d"; "zeros_like" ]%string.

(** Loading, in a body, a bare name that is neither in [module_names]
    nor a builtin of Python: the bodies of [abs] and [softmax] call
    [where] and [fdiv] this way, without the prefix [tlcore.] that the
    other bodies use. *)
Definition unbound_global {A : Type} (name : string) : result A :=
  raise (NameError name).

(** ** The primitive layer on Python integers *)

(** [x // y] *)
Definition floordiv (x y : Z) : result Z :=
  if y =? 0 then raise ZeroDivisionError else ret (x / y).

(** [x % y] *)
Definition pymod (x y : Z) : result Z :=
  if y =? 0 then raise ZeroDivisionError else ret (x mod y).

(** The comparison primitives of a backend, on its scalars:
    [less_than] is [x < y], [greater_than] is [x > y] and
    [greater_equal] is [x >= y].  Nothing is assumed about them. *)
Class Compare (V : Type) : Type :=
  { less_than : V -> V -> bool
  ; greater_than : V -> V -> bool
  ; greater_equal : V -> V -> bool }.

#[global] Instance Compare_int : Compare Z :=
  { less_than := Z.ltb
  ; greater_than := Z.gtb
  ; greater_equal := Z.geb }.

(** A backend in which two scalars can compare equal without being the
    same value, as the two zeros of IEEE floats do: a magnitude with a
    sign bit that the comparisons do not look at. *)
#[global] Instance Compare_signed : Compare (Z * bool) :=
  { less_than := fun a b => fst a <? fst b
  ; greater_than := fun a b => fst a >? fst b
  ; greater_equal := fun a b => fst a >=? fst b }.

(** ** The primitive layer [triton.language.core] *)

Module tlcore.

(** Modelled from the spec: [tlcore.where(cond, x, y)], the elementwise
    ternary select of [triton.language.core], which is outside
    [stdlib.py]; on a scalar it yields [x] where [cond] holds and [y]
    elsewhere. *)
Definition where_ {V : Type} (cond : bool) (x y : V) : V :=
  if cond then x else y.

(** The tensor primitives that the body of [softmax] names.  The module
    [triton.language.core] is outside [stdlib.py], so the
    primitives are the fields of an interface: [sub] is the operator
    [-], [max] and [sum] take the tensor and the axis, [fdiv] takes
    numerator, denominator and the compile-time rounding flag. *)
Class Ops (T : Type) : Type :=
  { sub : T -> T -> T
  ; max : T -> Z -> T
  ; exp : T -> T
  ; sum : T -> Z -> T
  ; fdiv : T -> T -> bool -> T }.

(** The shape primitives that [ravel] and [zeros_like] use: the
    attributes [shape], [dtype] and [numel] of a value, [reshape] and
    the constructor [zeros].  [D] is the type of element types. *)
Class Tensor (T D : Type) : Type :=
  { shape : T -> list Z
  ; dtype : T -> D
  ; numel : T -> Z
  ; reshape : T -> list Z -> T
  ; zeros : list Z -> D -> T }.

End tlcore.

(** Modelled from the spec: the expression graph that the primitives of
    [triton.language.core] record under the tracing wrapper, a node
    being an operator tag with its ordered operands (symbolic values or
    compile-time constants).  [Arg] is an input of the traced function. *)
Inductive node : Type :=
| Arg (name : string)
| Sub (lhs rhs : node)
| Max (input : node) (axis : Z)
| Exp (input : node)
| Sum (input : node) (axis : Z)
| Fdiv (num den : node) (ieee_rounding : bool).

#[global] Instance Ops_node : tlcore.Ops node :=
  { tlcore.sub := Sub
  ; tlcore.max := Max
  ; tlcore.exp := Exp
  ; tlcore.sum := Sum
  ; tlcore.fdiv := Fdiv }.

(** ** Elementwise composition functions *)

(** Line 22 calls the bare name [where]; the name is loaded before the
    arguments are evaluated. *)
Definition abs (x : Z) : result Z :=
  where_ <- @unbound_global (bool -> Z -> Z -> Z) "where" ;;
  ret (where_ (greater_equal x 0) x (- x)).

Definition cdiv (x div : Z) : result Z :=
  floordiv (x + div - 1) div.

Definition minimum {V : Type} `{Compare V} (x y : V) : V :=
  tlcore.where_ (less_than x y) x y.

Definition maximum {V : Type} `{Compare V} (x y : V) : V :=
  tlcore.where_ (greater_than x y) x y.

(** [ieee_rounding] is declared [constexpr] with default [False].
    Lines 91-93 reach the primitives through [tlcore.]; line 94 calls
    the bare name [fdiv]. *)
Definition softmax {T : Type} `{tlcore.Ops T} (x : T) (ieee_rounding : bool) : result T :=
  let z := tlcore.sub x (tlcore.max x 0) in
  let num := tlcore.exp z in
  let den := tlcore.sum num 0 in
  fdiv <- @unbound_global (T -> T -> bool -> T) "fdiv" ;;
  ret (fdiv num den ieee_rounding).

(** ** Index remap *)

Definition swizzle2d (i j size_i size_j size_g : Z) : result (Z * Z) :=
  (* "unrolled index in array" *)
  let ij := i * size_j + j in
  (* number of elements in [size_g] groups of [size_j] columns *)
  let size_gj := size_g * size_j in
  (* index of the group in which (i,j) is *)
  group_id <- floordiv ij size_gj ;;
  (* row-index of the first element of this group *)
  let off_i := group_id * size_g in
  (* last group may have fewer rows *)
  let size_g := minimum (size_i - off_i) size_g in
  (* new row and column indices *)
  r <- pymod ij size_g ;;
  let new_i := off_i + r in
  m <- pymod ij size_gj ;;
  new_j <- floordiv m size_g ;;
  ret (new_i, new_j).

(** The algorithm as the specification writes it, on total integer
    division and [Z.min]: the reference against which [swizzle2d] is
    compared. *)
Definition swizzle2d_reference (i j size_i size_j size_g : Z) : Z * Z :=
  let ij := i * size_j + j in
  let size_gj := size_g * size_j in
  let group_id := ij / size_gj in
  let off_i := group_id * size_g in
  let eff_g := Z.min (size_i - off_i) size_g in
  let new_i := off_i + (ij mod eff_g) in
  let new_j := (ij mod size_gj) / eff_g in
  (new_i, new_j).

(** Rows left from the first row of the group of row [i], capped by
    the group size: the value that line 136 rebinds [size_g] to. *)
Definition eff_g (size_i size_g i : Z) : Z :=
  Z.min (size_i - i / size_g * size_g) size_g.

(** The cells of a [size_i] by [size_j] grid. *)
Definition in_grid (size_i size_j : Z) (p : Z * Z) : Prop :=
  0 <= fst p < size_i /\ 0 <= snd p < size_j.

(** The cells of the grid in row-major order, for running the remap
    over a whole grid. *)
Definition grid (size_i size_j : Z) : list (Z * Z) :=
  list_prod (map Z.of_nat (seq 0 (Z.to_nat size_i)))
            (map Z.of_nat (seq 0 (Z.to_nat size_j))).

(** The two matrices of the docstring of [swizzle2d]. *)
Definition doc_before : list (list Z) :=
  [ [0 ; 1 ; 2 ; 3 ];
    [4 ; 5 ; 6 ; 7 ];
    [8 ; 9 ; 10; 11];
    [12; 13; 14; 15] ].

Definition doc_after : list (list Z) :=
  [ [0; 2;  4 ; 6 ];
    [1; 3;  5 ; 7 ];
    [8; 10; 12; 14];
    [9; 11; 13; 15] ].

Definition cell (m : list (list Z)) (p : Z * Z) : option Z :=
  nth_error (nth (Z.to_nat (fst p)) m []) (Z.to_nat (snd p)).

(** The value at [(i, j)] of the first matrix sits at
    [swizzle2d i j 4 4 2] of the second. *)
Definition doc_cell_agrees (p : Z * Z) : bool :=
  match swizzle2d (fst p) (snd p) 4 4 2, cell doc_before p with
  | inr q, Some v =>
      match cell doc_after q with
      | Some w => v =? w
      | None => false
      end
  | _, _ => false
  end.

(** ** The export decorator and the module body *)

(** A function object as [def] makes it: its name and its docstring. *)
Record function : Type :=
  { __name__ : string
  ; __doc__ : option string }.

(** The objects that the list [__all__] can hold: a name string, or a
    callable of class [C], the class of what the tracing wrapper
    returns. *)
Inductive object (C : Type) : Type :=
| Str (s : string)
| Callable (c : C).

Arguments Str {C} s.
Arguments Callable {C} c.

(** [export] under the list [__all__] as state. *)
Definition export {C : Type} (func : object C) : state (list (object C)) (object C) :=
  modify (fun __all__ => __all__ ++ [func]) ;;
  ret func.

Definition _add_math_1arg_docstr (name : string) (func : function) : function :=
  let docstr_head := "
    Computes the element-wise "%string in
  let docstr_tail := " of :code:`x`

    :param x: the input values
    :type x: Block
    "%string in
  {| __name__ := __name__ func
   ; __doc__ := Some (docstr_head ++ name ++ docstr_tail)%string |}.

Definition def_abs : function :=
  {| __name__ := "abs"; __doc__ := None |}.

Definition def_cdiv : function :=
  {| __name__ := "cdiv"
   ; __doc__ := Some "
    Computes the ceiling division of :code:`x` by :code:`div`

    :param x: the input number
    :type input: Block
    :param div: the divisor
    :param div: Block
    "%string |}.

Definition def_minimum : function :=
  {| __name__ := "minimum"
   ; __doc__ := Some "
    Computes the element-wise minimum of :code:`x` and :code:`y`.

    :param input: the first input tensor
    :type input: Block
    :param other: the second input tensor
    :type other: Block
    "%string |}.

Definition def_maximum : function :=
  {| __name__ := "maximum"
   ; __doc__ := Some "
    Computes the element-wise maximum of :code:`x` and :code:`y`.

    :param input: the first input tensor
    :type input: Block
    :param other: the second input tensor
    :type other: Block
    "%string |}.

Definition def_sigmoid : function :=
  {| __name__ := "sigmoid"; __doc__ := None |}.

Definition def_softmax : function :=
  {| __name__ := "softmax"; __doc__ := None |}.

Definition def_ravel : function :=
  {| __name__ := "ravel"
   ; __doc__ := Some "
    Returns a contiguous flattened view of :code:`x`

    :param x: the input tensor
    :type x: Block
    "%string |}.

Definition def_swizzle2d : function :=
  {| __name__ := "swizzle2d"
   ; __doc__ := Some "
    transformes indices of a row-major size_i*size_j matrix into those
    of one where indices are row major for each group of size_j rows.
    For example, for size_i = size_j = 4 and size_g = 2, it will transform
    [[0 , 1 , 2 , 3 ],
     [4 , 5 , 6 , 7 ],
     [8 , 9 , 10, 11],
     [12, 13, 14, 15]]
    into
    [[0, 2,  4 , 6 ],
     [1, 3,  5 , 7 ],
     [8, 10, 12, 14],
     [9, 11, 13, 15]]
    "%string |}.

Definition def_zeros_like : function :=
  {| __name__ := "zeros_like"; __doc__ := None |}.

Section ModuleBody.

(** [triton.code_gen.jit], the tracing wrapper, is outside
    [stdlib.py]: it is a parameter, any map from the function that
    [def] made to a callable of some class [C]. *)
Variable C : Type.
Variable tljit : function -> C.

(** [@export @tljit def f]: the name is bound to
    [export(tljit(f))]. *)
Definition exported (f : function) : state (list (object C)) (object C) :=
  export (Callable (tljit f)).

(** The statements of the module body that touch [__all__], top to
    bottom: line 14 creates the list, then each decorated [def] binds
    its name to what the outermost decorator returns.  The value is
    the module namespace, one binding per [def]. *)
Definition stdlib : state (list (object C)) (list (string * object C)) :=
  put [] ;;
  abs <- exported def_abs ;;
  cdiv <- exported def_cdiv ;;
  minimum <- exported def_minimum ;;
  maximum <- exported def_maximum ;;
  sigmoid <- exported (_add_math_1arg_docstr "sigmoid" def_sigmoid) ;;
  softmax <- exported (_add_math_1arg_docstr "softmax" def_softmax) ;;
  ravel <- exported def_ravel ;;
  swizzle2d <- exported def_swizzle2d ;;
  zeros_like <- exported def_zeros_like ;;
  ret [ ("abs", abs); ("cdiv", cdiv); ("minimum", minimum);
        ("maximum", maximum); ("sigmoid", sigmoid); ("softmax", softmax);
        ("ravel", ravel); ("swizzle2d", swizzle2d);
        ("zeros_like", zeros_like) ]%string.

End ModuleBody.

(** The decorated functions, as [def] and the inner decorators leave
    them, in the order of their declaration. *)
Definition declared : list function :=
  [ def_abs; def_cdiv; def_minimum; def_maximum;
    _add_math_1arg_docstr "sigmoid" def_sigmoid;
    _add_math_1arg_docstr "softmax" def_softmax;
    def_ravel; def_swizzle2d; def_zeros_like ].

(** ** Shape functions *)

Definition ravel {T D : Type} `{tlcore.Tensor T D} (x : T) : T :=
  tlcore.reshape x [tlcore.numel x].

Definition zeros_like {T D : Type} `{tlcore.Tensor T D} (input : T) : T :=
  tlcore.zeros (tlcore.shape input) (tlcore.dtype input).

(** Modelled from the spec: a symbolic value, which carries a shape and
    an element type and no data; [reshape] replaces the shape, [zeros]
    makes the value of a shape and an element type, and [numel] is the
    product of the dimensions. *)
Record block : Type :=
  { block_shape : list Z
  ; block_dtype : string }.

#[global] Instance Tensor_block : tlcore.Tensor block string :=
  { tlcore.shape := block_shape
  ; tlcore.dtype := block_dtype
  ; tlcore.numel := fun x => fold_right Z.mul 1 (block_shape x)
  ; tlcore.reshape := fun x s => {| block_shape := s; block_dtype := block_dtype x |}
  ; tlcore.zeros := fun s d => {| block_shape := s; block_dtype := d |} }.

(** * Part II: properties *)

(** ** Runs on concrete inputs *)

Example swizzle2d_origin : swizzle2d 0 0 4 4 2 = inr (0, 0).
Proof. reflexivity. Qed.

Example swizzle2d_ragged : swizzle2d 4 1 5 3 2 = inr (4, 1).
Proof. reflexivity. Qed.

Example swizzle2d_negative_rows : swizzle2d 0 0 (-1) 4 2 = inr (0, 0).
Proof. reflexivity. Qed.

Example cdiv_negative_divisor : cdiv 7 (-2) = inr (-2).
Proof. reflexivity. Qed.

Example abs_minus_5 : abs (-5) = inl (NameError "where").
Proof. reflexivity. Qed.

Example minimum_3_5 : minimum 3 5 = 3 /\ maximum 3 5 = 5.
Proof. split; reflexivity. Qed.

(** ** Arithmetic of the row-major flat index *)

Section FlatIndex.

Variables size_j size_g : Z.
Hypothesis size_j_pos : 0 < size_j.
Hypothesis size_g_pos : 0 < size_g.

(** The group of a flat index is the group of its row. *)
Lemma group_of_flat (i j : Z) :
  0 <= j < size_j ->
  (i * size_j + j) / (size_g * size_j) = i / size_g.
Proof.
  intros Hj.
  rewrite (Z.mul_comm size_g size_j).
  rewrite <- Z.div_div by lia.
  rewrite Z.div_add_l by lia.
  rewrite (Z.div_small j size_j) by lia.
  f_equal. lia.
Qed.

(** The position inside the group is the row inside the group,
    followed by the column. *)
Lemma local_of_flat (i j : Z) :
  0 <= j < size_j ->
  (i * size_j + j) mod (size_g * size_j) = (i mod size_g) * size_j + j.
Proof.
  intros Hj.
  rewrite Z.mod_eq by lia.
  rewrite group_of_flat by assumption.
  rewrite (Z.mod_eq i size_g) by lia.
  ring.
Qed.

End FlatIndex.

Lemma minimum_int (x y : Z) : minimum x y = Z.min x y.
Proof.
  unfold minimum, tlcore.where_. simpl.
  destruct (Z.ltb_spec x y); lia.
Qed.

Section Swizzle.

Variables size_i size_j size_g : Z.
Hypothesis size_i_pos : 0 < size_i.
Hypothesis size_j_pos : 0 < size_j.
Hypothesis size_g_pos : 0 < size_g.

Local Abbreviation eff_g := (eff_g size_i size_g).

Lemma eff_g_bounds (i : Z) :
  0 <= i < size_i -> i mod size_g < eff_g i <= size_g.
Proof.
  intros Hi. unfold eff_g.
  pose proof (Z.mod_pos_bound i size_g size_g_pos).
  pose proof (Z.div_mod i size_g). lia.
Qed.

Lemma reference_unfold (i j : Z) :
  0 <= j < size_j ->
  swizzle2d_reference i j size_i size_j size_g =
    (i / size_g * size_g + (i * size_j + j) mod eff_g i,
     ((i mod size_g) * size_j + j) / eff_g i).
Proof.
  intros Hj. unfold swizzle2d_reference, eff_g.
  rewrite group_of_flat, local_of_flat by assumption.
  reflexivity.
Qed.

Lemma swizzle2d_defined (i j : Z) :
  0 <= i < size_i -> 0 <= j < size_j ->
  swizzle2d i j size_i size_j size_g =
    inr (swizzle2d_reference i j size_i size_j size_g).
Proof.
  intros Hi Hj.
  pose proof (eff_g_bounds i Hi) as He.
  pose proof (Z.mod_pos_bound i size_g size_g_pos) as Hm.
  unfold swizzle2d, swizzle2d_reference, floordiv, pymod.
  assert (Hgj : (size_g * size_j =? 0) = false) by (apply Z.eqb_neq; nia).
  rewrite Hgj. cbn [bind ret Monad_either].
  rewrite minimum_int, group_of_flat by assumption.
  fold (eff_g i).
  assert (He0 : (eff_g i =? 0) = false) by (apply Z.eqb_neq; lia).
  rewrite He0. cbn [bind ret Monad_either].
  reflexivity.
Qed.

Lemma reference_in_grid (i j : Z) :
  0 <= i < size_i -> 0 <= j < size_j ->
  0 <= fst (swizzle2d_reference i j size_i size_j size_g) < size_i /\
  0 <= snd (swizzle2d_reference i j size_i size_j size_g) < size_j.
Proof.
  intros Hi Hj.
  rewrite reference_unfold by assumption. cbn [fst snd].
  pose proof (eff_g_bounds i Hi) as He.
  pose proof (Z.mod_pos_bound i size_g size_g_pos) as Hm.
  pose proof (Z.div_mod i size_g) as Hd.
  assert (He' : eff_g i <= size_i - i / size_g * size_g)
    by (unfold eff_g; lia).
  pose proof (Z.mod_pos_bound (i * size_j + j) (eff_g i)) as Hr.
  assert (0 <= i / size_g) by (apply Z.div_pos; lia).
  repeat split.
  - nia.
  - lia.
  - apply Z.div_pos; nia.
  - apply Z.div_lt_upper_bound; nia.
Qed.

(** Rows of one group share [eff_g]. *)
Lemma eff_g_same_group (i i' : Z) :
  i / size_g = i' / size_g -> eff_g i = eff_g i'.
Proof. unfold eff_g. intros ->. reflexivity. Qed.

Lemma reference_injective (i j i' j' : Z) :
  0 <= i < size_i -> 0 <= j < size_j ->
  0 <= i' < size_i -> 0 <= j' < size_j ->
  swizzle2d_reference i j size_i size_j size_g =
    swizzle2d_reference i' j' size_i size_j size_g ->
  i = i' /\ j = j'.
Proof.
  intros Hi Hj Hi' Hj'.
  rewrite !reference_unfold by assumption.
  intros Heq. injection Heq as Hrow Hcol.
  pose proof (eff_g_bounds i Hi) as He.
  pose proof (eff_g_bounds i' Hi') as He'.
  pose proof (Z.mod_pos_bound i size_g size_g_pos) as Hm.
  pose proof (Z.mod_pos_bound i' size_g size_g_pos) as Hm'.
  pose proof (Z.div_mod i size_g) as Hd.
  pose proof (Z.div_mod i' size_g) as Hd'.
  pose proof (Z.mod_pos_bound (i * size_j + j) (eff_g i)) as Hr.
  pose proof (Z.mod_pos_bound (i' * size_j + j') (eff_g i')) as Hr'.
  (* the new row determines the group *)
  assert (Hg : i / size_g = i' / size_g) by nia.
  rewrite <- (eff_g_same_group i i' Hg) in *.
  rewrite <- Hg in *.
  set (e := eff_g i) in *.
  set (g := i / size_g) in *.
  set (r := i mod size_g) in *.
  set (r' := i' mod size_g) in *.
  (* same residue and same quotient by [e]: same position in the group *)
  pose proof (Z.div_mod (i * size_j + j) e) as Hij.
  pose proof (Z.div_mod (i' * size_j + j') e) as Hij'.
  pose proof (Z.div_mod (r * size_j + j) e) as Hl.
  pose proof (Z.div_mod (r' * size_j + j') e) as Hl'.
  pose proof (Z.mod_pos_bound (r * size_j + j) e) as Ht.
  pose proof (Z.mod_pos_bound (r' * size_j + j') e) as Ht'.
  assert (Hmod : (i * size_j + j) mod e = (i' * size_j + j') mod e) by lia.
  rewrite <- Hmod in Hij'. rewrite <- Hcol in Hl'.
  set (q := (i * size_j + j) / e) in *.
  set (q' := (i' * size_j + j') / e) in *.
  set (n := (r * size_j + j) / e) in *.
  set (m := (i * size_j + j) mod e) in *.
  set (t := (r * size_j + j) mod e) in *.
  set (t' := (r' * size_j + j') mod e) in *.
  assert (Hdiff : e * (q - q') = t - t') by nia.
  assert (Hq : q = q') by nia.
  assert (Hflat : i * size_j + j = i' * size_j + j') by nia.
  assert (i = i') by nia.
  split; [assumption | nia].
Qed.

(** Every cell [(a, b)] of the grid is the image of a cell: the one
    at position [b * e + r] of the group of row [a], where [r] undoes
    the rotation that the residue of the group's first flat index
    adds to the new row. *)
Lemma reference_surjective (a b : Z) :
  0 <= a < size_i -> 0 <= b < size_j ->
  exists i j : Z,
    (0 <= i < size_i /\ 0 <= j < size_j) /\
    swizzle2d_reference i j size_i size_j size_g = (a, b).
Proof.
  intros Ha Hb.
  pose proof (eff_g_bounds a Ha) as He.
  pose proof (Z.mod_pos_bound a size_g size_g_pos) as Hm.
  pose proof (Z.div_mod a size_g) as Hd.
  assert (He' : eff_g a <= size_i - a / size_g * size_g)
    by (unfold eff_g; lia).
  assert (Hg0 : 0 <= a / size_g) by (apply Z.div_pos; lia).
  set (g := a / size_g) in *.
  set (e := eff_g a) in *.
  set (c := g * size_g * size_j).
  set (r := (a mod size_g - c) mod e).
  set (l := b * e + r).
  assert (Hr : 0 <= r < e) by (apply Z.mod_pos_bound; lia).
  assert (Hl : 0 <= l < e * size_j) by (unfold l; nia).
  assert (Hc : 0 <= c) by (unfold c; nia).
  set (i := (c + l) / size_j).
  set (j := (c + l) mod size_j).
  assert (Hj : 0 <= j < size_j) by (apply Z.mod_pos_bound; lia).
  assert (Hflat : i * size_j + j = c + l).
  { unfold i, j. pose proof (Z.div_mod (c + l) size_j). lia. }
  assert (Hi : 0 <= i < size_i).
  { split.
    - apply Z.div_pos; lia.
    - apply Z.div_lt_upper_bound; [lia |]. unfold c. nia. }
  assert (Hgi : i / size_g = g).
  { rewrite <- (group_of_flat size_j size_g size_j_pos size_g_pos i j Hj).
    rewrite Hflat. unfold c.
    replace (g * size_g * size_j + l) with (g * (size_g * size_j) + l) by ring.
    rewrite Z.div_add_l by nia.
    rewrite (Z.div_small l) by nia. lia. }
  assert (Hri : i mod size_g * size_j + j = l).
  { rewrite Z.mod_eq by lia. rewrite Hgi. unfold c in Hflat. nia. }
  exists i, j. split; [split; assumption |].
  rewrite reference_unfold by assumption.
  rewrite Hri, Hflat, Hgi.
  rewrite (eff_g_same_group i a Hgi). fold e.
  f_equal.
  - assert (Hrot : (c + l) mod e = a mod size_g).
    { unfold l, r.
      rewrite (Z.mod_eq (a mod size_g - c) e) by lia.
      replace (c + (b * e + (a mod size_g - c - e * ((a mod size_g - c) / e))))
        with (a mod size_g + (b - (a mod size_g - c) / e) * e) by ring.
      rewrite Z.mod_add by lia.
      apply Z.mod_small. lia. }
    rewrite Hrot. lia.
  - unfold l. rewrite Z.div_add_l by lia.
    rewrite (Z.div_small r e) by lia. lia.
Qed.

End Swizzle.

(** ** The cells of a grid, as a list *)

Lemma in_range (n x : Z) :
  In x (map Z.of_nat (seq 0 (Z.to_nat n))) <-> 0 <= x < n.
Proof.
  rewrite in_map_iff. split.
  - intros (k & <- & Hk). apply in_seq in Hk. lia.
  - intros Hx. exists (Z.to_nat x). split; [lia |].
    apply in_seq. lia.
Qed.

Lemma NoDup_range (n : Z) : NoDup (map Z.of_nat (seq 0 (Z.to_nat n))).
Proof.
  apply NoDup_map_NoDup_ForallPairs; [| apply seq_NoDup].
  intros a b _ _. apply Nat2Z.inj.
Qed.

Lemma NoDup_list_prod {A B : Type} (l : list A) (l' : list B) :
  NoDup l -> NoDup l' -> NoDup (list_prod l l').
Proof.
  intros Hl Hl'. induction Hl as [| x l Hx Hl IH]; cbn [list_prod].
  - constructor.
  - apply NoDup_app.
    + apply NoDup_map_NoDup_ForallPairs; [| assumption].
      intros a b _ _ Hab. now injection Hab.
    + assumption.
    + intros [a b] Hin Hin'.
      apply in_map_iff in Hin as (b' & Hb' & _). injection Hb' as <- _.
      apply in_prod_iff in Hin' as [Hin' _]. contradiction.
Qed.

Lemma in_grid_iff (size_i size_j : Z) (p : Z * Z) :
  In p (grid size_i size_j) <-> in_grid size_i size_j p.
Proof.
  destruct p as [i j]. unfold grid, in_grid.
  rewrite in_prod_iff, !in_range. reflexivity.
Qed.

Lemma NoDup_grid (size_i size_j : Z) : NoDup (grid size_i size_j).
Proof. apply NoDup_list_prod; apply NoDup_range. Qed.

(** ** The index remap on a valid grid *)

(** C3: for sizes [size_i, size_j, size_g > 0] and a cell
    [0 <= i < size_i], [0 <= j < size_j], [swizzle2d] returns, without
    failure, exactly the pair of the reference algorithm of the
    specification: with [ij = i*size_j + j], [size_gj = size_g*size_j],
    [group_id = ij // size_gj], [off_i = group_id*size_g] and
    [eff_g = min(size_i - off_i, size_g)], the pair
    [(off_i + ij % eff_g, (ij % size_gj) // eff_g)]. *)
Theorem swizzle2d_matches_reference (i j size_i size_j size_g : Z) :
  0 < size_i -> 0 < size_j -> 0 < size_g ->
  0 <= i < size_i -> 0 <= j < size_j ->
  swizzle2d i j size_i size_j size_g =
    inr (swizzle2d_reference i j size_i size_j size_g) /\
  swizzle2d_reference i j size_i size_j size_g =
    (let ij := i * size_j + j in
     let size_gj := size_g * size_j in
     let off_i := ij / size_gj * size_g in
     let eff_g := Z.min (size_i - off_i) size_g in
     (off_i + ij mod eff_g, (ij mod size_gj) / eff_g)).
Proof.
  intros _ Hsj Hsg Hi Hj. split.
  - apply swizzle2d_defined; assumption.
  - reflexivity.
Qed.

Lemma swizzle2d_matches_reference_witness :
  (0 < 5 /\ 0 < 3 /\ 0 < 2 /\ 0 <= 4 < 5 /\ 0 <= 1 < 3) /\
  swizzle2d 4 1 5 3 2 = inr (swizzle2d_reference 4 1 5 3 2).
Proof.
  split; [lia |].
  apply (swizzle2d_matches_reference 4 1 5 3 2); lia.
Defined.

(** C1: for sizes [size_i, size_j, size_g > 0], [swizzle2d] restricted
    to the cells [0 <= i < size_i], [0 <= j < size_j] is a bijection of
    the grid onto itself: it returns a cell of the grid, no two
    distinct cells have the same image, and every cell is an image; so
    the images of the cells of the grid are the cells of the grid, each
    once. *)
Theorem swizzle2d_bijective (size_i size_j size_g : Z) :
  0 < size_i -> 0 < size_j -> 0 < size_g ->
  (forall i j, in_grid size_i size_j (i, j) ->
     exists p, swizzle2d i j size_i size_j size_g = inr p /\
               in_grid size_i size_j p) /\
  (forall i j i' j',
     in_grid size_i size_j (i, j) -> in_grid size_i size_j (i', j') ->
     swizzle2d i j size_i size_j size_g = swizzle2d i' j' size_i size_j size_g ->
     (i, j) = (i', j')) /\
  (forall p, in_grid size_i size_j p ->
     exists i j, in_grid size_i size_j (i, j) /\
                 swizzle2d i j size_i size_j size_g = inr p) /\
  Permutation
    (map (fun p => swizzle2d (fst p) (snd p) size_i size_j size_g)
         (grid size_i size_j))
    (map inr (grid size_i size_j)).
Proof.
  intros Hsi Hsj Hsg.
  assert (Hrange : forall i j, in_grid size_i size_j (i, j) ->
            exists p, swizzle2d i j size_i size_j size_g = inr p /\
                      in_grid size_i size_j p).
  { intros i j [Hi Hj]. cbn [fst snd] in Hi, Hj.
    exists (swizzle2d_reference i j size_i size_j size_g). split.
    - apply swizzle2d_defined; assumption.
    - apply reference_in_grid; assumption. }
  assert (Hinj : forall i j i' j',
            in_grid size_i size_j (i, j) -> in_grid size_i size_j (i', j') ->
            swizzle2d i j size_i size_j size_g =
              swizzle2d i' j' size_i size_j size_g ->
            (i, j) = (i', j')).
  { intros i j i' j' [Hi Hj] [Hi' Hj'] Heq. cbn [fst snd] in Hi, Hj, Hi', Hj'.
    rewrite !swizzle2d_defined in Heq by assumption.
    assert (Href : swizzle2d_reference i j size_i size_j size_g =
                   swizzle2d_reference i' j' size_i size_j size_g)
      by congruence.
    apply reference_injective in Href; try assumption.
    destruct Href as [-> ->]. reflexivity. }
  assert (Hsurj : forall p, in_grid size_i size_j p ->
            exists i j, in_grid size_i size_j (i, j) /\
                        swizzle2d i j size_i size_j size_g = inr p).
  { intros [a b] [Ha Hb]. cbn [fst snd] in Ha, Hb.
    destruct (reference_surjective size_i size_j size_g) with (a := a) (b := b)
      as (i & j & [Hi Hj] & Heq); try assumption.
    exists i, j. split; [split; assumption |].
    rewrite swizzle2d_defined by assumption. now rewrite Heq. }
  repeat split; try assumption.
  apply NoDup_Permutation.
  - apply NoDup_map_NoDup_ForallPairs; [| apply NoDup_grid].
    intros [i j] [i' j'] Hp Hp'. cbn [fst snd].
    apply Hinj; apply in_grid_iff; assumption.
  - apply NoDup_map_NoDup_ForallPairs; [| apply NoDup_grid].
    intros p p' _ _ Heq. now injection Heq.
  - intros r. rewrite !in_map_iff. split.
    + intros ([i j] & <- & Hp). cbn [fst snd].
      apply in_grid_iff in Hp.
      destruct (Hrange i j Hp) as (q & Hq & Hgrid).
      exists q. split; [now rewrite Hq | now apply in_grid_iff].
    + intros (q & <- & Hq). apply in_grid_iff in Hq.
      destruct (Hsurj q Hq) as (i & j & Hgrid & Hij).
      exists (i, j). split; [assumption | now apply in_grid_iff].
Qed.

Lemma swizzle2d_bijective_witness :
  (0 < 5 /\ 0 < 3 /\ 0 < 2) /\
  Permutation (map (fun p => swizzle2d (fst p) (snd p) 5 3 2) (grid 5 3))
              (map inr (grid 5 3)).
Proof.
  split; [lia |].
  apply (swizzle2d_bijective 5 3 2); lia.
Defined.

(** C7: [swizzle2d(i=1, j=0, size_i=4, size_j=4, size_g=2)] is
    [(0, 2)]; in the matrices of the docstring the value [4] is at row
    1, column 0 before and at row 0, column 2 after, and every cell of
    the first matrix is found in the second at its image. *)
Theorem swizzle2d_documented_example :
  swizzle2d 1 0 4 4 2 = inr (0, 2) /\
  cell doc_before (1, 0) = Some 4 /\
  cell doc_after (0, 2) = Some 4 /\
  forallb doc_cell_agrees (grid 4 4) = true.
Proof. repeat split; vm_compute; reflexivity. Qed.

(** C9: with [size_g = 1] and [size_i, size_j > 0], [swizzle2d] is
    the identity on the cells of the grid. *)
Theorem swizzle2d_unit_group_identity (i j size_i size_j : Z) :
  0 < size_i -> 0 < size_j ->
  0 <= i < size_i -> 0 <= j < size_j ->
  swizzle2d i j size_i size_j 1 = inr (i, j).
Proof.
  intros Hsi Hsj Hi Hj.
  rewrite swizzle2d_defined by lia.
  rewrite reference_unfold by lia.
  unfold eff_g. rewrite Z.div_1_r, Z.mod_1_r.
  replace (Z.min (size_i - i * 1) 1) with 1 by lia.
  rewrite Z.mod_1_r, Z.div_1_r.
  do 2 f_equal; lia.
Qed.

Lemma swizzle2d_unit_group_identity_witness :
  (0 < 3 /\ 0 < 4 /\ 0 <= 2 < 3 /\ 0 <= 1 < 4) /\
  swizzle2d 2 1 3 4 1 = inr (2, 1).
Proof.
  split; [lia |].
  apply (swizzle2d_unit_group_identity 2 1 3 4); lia.
Defined.

(** ** The index remap on sizes that are not positive *)

(** C2, as stated, fails on [swizzle2d(0, 0, 4, 4, 0)]: the size
    [size_g = 0] is not positive, and the call does not signal
    [InvalidArgument]; it fails inside the floor division of line
    132. *)
Lemma swizzle2d_zero_group_not_invalid_argument :
  ~ (4 <= 0 \/ 4 <= 0 \/ 0 <= 0 -> swizzle2d 0 0 4 4 0 = inl InvalidArgument).
Proof.
  intros H. specialize (H (or_intror (or_intror (Z.le_refl 0)))).
  vm_compute in H. discriminate H.
Qed.

(** C2, amended: [swizzle2d] does not validate its sizes and never
    signals [InvalidArgument].  Its only failure is the
    [ZeroDivisionError] of the integer primitives, raised exactly when
    a divisor is zero: [size_g * size_j] at line 132 (so whenever
    [size_g = 0] or [size_j = 0], as in [swizzle2d(0, 0, 4, 4, 0)]), or
    the rebound [size_g = minimum(size_i - off_i, size_g)] at line 138.
    On every other input, sizes that are not positive included, it
    returns a pair. *)
Theorem swizzle2d_fails_only_in_division (i j size_i size_j size_g : Z) :
  swizzle2d i j size_i size_j size_g <> inl InvalidArgument /\
  (size_g = 0 \/ size_j = 0 ->
   floordiv (i * size_j + j) (size_g * size_j) = inl ZeroDivisionError /\
   swizzle2d i j size_i size_j size_g = inl ZeroDivisionError) /\
  (swizzle2d i j size_i size_j size_g = inl ZeroDivisionError <->
   size_g * size_j = 0 \/
   minimum (size_i - (i * size_j + j) / (size_g * size_j) * size_g) size_g = 0) /\
  ((exists p, swizzle2d i j size_i size_j size_g = inr p) <->
   ~ (size_g * size_j = 0 \/
      minimum (size_i - (i * size_j + j) / (size_g * size_j) * size_g) size_g = 0)) /\
  swizzle2d 0 0 4 4 0 = inl ZeroDivisionError /\
  swizzle2d 0 0 (-1) 4 2 = inr (0, 0).
Proof.
  unfold swizzle2d, floordiv, pymod.
  destruct (Z.eqb_spec (size_g * size_j) 0) as [Hz | Hnz];
    cbn [bind ret raise Monad_either Exception_either].
  - repeat split; try discriminate; try tauto.
    intros [p Hp]. discriminate Hp.
  - set (e := minimum _ size_g).
    destruct (Z.eqb_spec e 0) as [He | Hne];
      cbn [bind ret raise Monad_either Exception_either].
    + repeat split; try discriminate; try tauto; try nia.
      intros [p Hp]. discriminate Hp.
    + repeat split; try discriminate; try tauto; try nia.
      intros _. eexists. reflexivity.
Qed.

(** ** Numeric helpers *)

(** On a tie the strict comparison is false and the select takes its
    third argument. *)
Lemma minimum_not_less {V : Type} `{Compare V} (x y : V) :
  less_than x y = false -> minimum x y = y.
Proof. unfold minimum, tlcore.where_. intros ->. reflexivity. Qed.

Lemma maximum_not_greater {V : Type} `{Compare V} (x y : V) :
  greater_than x y = false -> maximum x y = y.
Proof. unfold maximum, tlcore.where_. intros ->. reflexivity. Qed.

(** The tie law up to any notion of equality of the backend that is
    reflexive and symmetric, such as the one that identifies the two
    signed zeros. *)
Lemma minimum_maximum_tie_upto {V : Type} `{Compare V} (R : V -> V -> Prop) :
  (forall a, R a a) -> (forall a b, R a b -> R b a) ->
  forall x y, R x y -> R (minimum x y) x /\ R (maximum x y) x.
Proof.
  intros Hrefl Hsym x y Hxy. unfold minimum, maximum, tlcore.where_.
  split.
  - destruct (less_than x y); auto.
  - destruct (greater_than x y); auto.
Qed.

(** C4, as stated, fails on the backend with a sign bit: the operands
    [(0, true)] and [(0, false)] are tied, neither strict comparison
    holds, and [minimum] and [maximum] do not select the first
    operand. *)
Lemma minimum_maximum_tie_not_first_operand :
  ~ (less_than (0, true) (0, false) = false /\
     greater_than (0, true) (0, false) = false ->
     minimum (0, true) (0, false) = (0, true) /\
     maximum (0, true) (0, false) = (0, true)).
Proof.
  intros H. destruct (H (conj eq_refl eq_refl)) as [Hmin _].
  vm_compute in Hmin. discriminate Hmin.
Qed.

(** C4, amended: on a tie, when neither strict comparison holds, the
    select falls through to its last argument: [minimum(x, y)] and
    [maximum(x, y)] both return the second operand [y], in every
    backend.  For operands that are the same value, [x = y], this is
    [x] as well. *)
Theorem minimum_maximum_tie_second_operand
    {V : Type} (backend : Compare V) (x y : V) :
  less_than x y = false -> greater_than x y = false ->
  minimum x y = y /\ maximum x y = y /\
  (x = y -> minimum x y = x /\ maximum x y = x).
Proof.
  intros Hlt Hgt.
  rewrite (minimum_not_less x y Hlt), (maximum_not_greater x y Hgt).
  split; [reflexivity |]. split; [reflexivity |].
  intros Heq. split; symmetry; exact Heq.
Qed.

Lemma minimum_maximum_tie_second_operand_witness :
  (less_than (0, true) (0, false) = false /\
   greater_than (0, true) (0, false) = false) /\
  minimum (0, true) (0, false) = (0, false) /\
  maximum (0, true) (0, false) = (0, false).
Proof.
  split; [split; reflexivity |].
  destruct (minimum_maximum_tie_second_operand Compare_signed
              (0, true) (0, false) eq_refl eq_refl) as (Hmin & Hmax & _).
  split; assumption.
Defined.

(** The ceiling of the rational [x / d], for a positive [d], in terms
    of floor division. *)
Lemma Qceiling_floordiv (x d : Z) :
  0 < d -> Qceiling (x # Z.to_pos d) = (x + d - 1) / d.
Proof.
  intros Hd. unfold Qceiling, Qfloor, Qopp. cbn [Qnum Qden].
  rewrite Z2Pos.id by assumption.
  pose proof (Z.div_mod (x + d - 1) d) as Hq.
  pose proof (Z.mod_pos_bound (x + d - 1) d Hd) as Hr.
  set (q := (x + d - 1) / d) in *.
  assert (Hdiv : - x / d = - q).
  { symmetry. apply (Z.div_unique (- x) d (- q) (d * q - x)); lia. }
  lia.
Qed.

(** C5: for a divisor [div > 0], [cdiv(x, div)] is
    [(x + div - 1) // div], which is the ceiling of [x / div]: the
    least integer [q] with [x <= q * div].  [cdiv(7, 2)] and
    [cdiv(8, 2)] are [4].  [cdiv] itself checks nothing: on [div = 0]
    its result is that of the floor division primitive, which fails. *)
Theorem cdiv_ceiling (x div : Z) :
  0 < div ->
  (cdiv x div = inr ((x + div - 1) / div) /\
   (forall q, cdiv x div = inr q ->
      (q - 1) * div < x <= q * div /\
      q = Qceiling (x # Z.to_pos div))) /\
  cdiv 7 2 = inr 4 /\
  cdiv 8 2 = inr 4 /\
  cdiv x 0 = floordiv (x + 0 - 1) 0 /\
  cdiv x 0 = inl ZeroDivisionError.
Proof.
  intros Hd.
  assert (Hc : cdiv x div = inr ((x + div - 1) / div)).
  { unfold cdiv, floordiv.
    destruct (Z.eqb_spec div 0); [lia | reflexivity]. }
  split; [split; [exact Hc |] | repeat split].
  intros q Hq. rewrite Hc in Hq. injection Hq as <-.
  pose proof (Z.div_mod (x + div - 1) div) as Hdm.
  pose proof (Z.mod_pos_bound (x + div - 1) div Hd) as Hr.
  split; [nia |].
  symmetry. apply Qceiling_floordiv. assumption.
Qed.

Lemma cdiv_ceiling_witness :
  0 < 2 /\ cdiv 7 2 = inr ((7 + 2 - 1) / 2).
Proof.
  split; [lia |].
  apply (cdiv_ceiling 7 2). lia.
Defined.

Lemma where_and_fdiv_are_unbound :
  ~ In "where"%string module_names /\ ~ In "fdiv"%string module_names.
Proof.
  split; intros Hin; cbn in Hin;
    repeat (destruct Hin as [Hin | Hin]; [discriminate Hin |]); exact Hin.
Qed.

(** C8: the body of [softmax] builds the operands that the claim
    names, [exp(x - max(x, 0))] and its [sum] along axis 0, and then
    calls the bare name [fdiv], which the module does not bind: for
    every input, every flag and every implementation of the primitives
    the call fails with [NameError], and no division node is built. *)
Theorem softmax_fails_on_unbound_fdiv :
  ~ In "fdiv"%string module_names /\
  (forall (T : Type) (ops : tlcore.Ops T) (x : T) (ieee_rounding : bool),
     softmax x ieee_rounding = inl (NameError "fdiv")) /\
  softmax (Arg "x") false = inl (NameError "fdiv") /\
  (forall (x : node) (ieee_rounding : bool),
     softmax x ieee_rounding <>
       inr (Fdiv (Exp (Sub x (Max x 0))) (Sum (Exp (Sub x (Max x 0))) 0)
                 ieee_rounding)).
Proof.
  split; [apply where_and_fdiv_are_unbound |].
  repeat split; try reflexivity.
  intros x ieee_rounding. discriminate.
Qed.

(** ** The export decorator *)

Lemma export_run {C : Type} (func : object C) (all : list (object C)) :
  runState (export func) all = (func, all ++ [func]).
Proof. reflexivity. Qed.

Lemma stdlib_run {C : Type} (tljit : function -> C) (all : list (object C)) :
  runState (stdlib C tljit) all =
    (combine (map __name__ declared)
             (map (fun f => Callable (tljit f)) declared),
     map (fun f => Callable (tljit f)) declared).
Proof. reflexivity. Qed.

(** C6: on the function [cdiv] and the empty list, the entry that
    [export] appends is the function object and not the string
    ["cdiv"]; after the module body has run, whatever the tracing
    wrapper is, no entry of [__all__] is a name string. *)
Theorem export_registers_the_callable_not_the_name :
  execState (export (Callable def_cdiv)) [] = [Callable def_cdiv] /\
  execState (export (Callable def_cdiv)) [] <> [Str (__name__ def_cdiv)] /\
  (forall (C : Type) (tljit : function -> C) (all : list (object C))
          (s : string),
     ~ In (Str s) (execState (stdlib C tljit) all)).
Proof.
  split; [reflexivity |]. split; [vm_compute; discriminate |].
  intros C tljit all s Hin. unfold execState in Hin.
  rewrite stdlib_run in Hin. cbn in Hin.
  repeat (destruct Hin as [Hin | Hin]; [discriminate Hin |]).
  exact Hin.
Qed.

(** C10: [export(f)] returns [f] itself, for every [f] and every
    content of [__all__], and [f] is then an entry of [__all__]; so
    each name of the module is bound to the callable that the tracing
    wrapper returned for it, unchanged. *)
Theorem export_returns_its_argument :
  (forall (C : Type) (func : object C) (all : list (object C)),
     evalState (export func) all = func /\
     In func (execState (export func) all)) /\
  (forall (C : Type) (tljit : function -> C) (all : list (object C)),
     map snd (evalState (stdlib C tljit) all) =
       map (fun f => Callable (tljit f)) declared).
Proof.
  split.
  - intros C func all. unfold evalState, execState.
    rewrite export_run. cbn [fst snd]. split; [reflexivity |].
    apply in_or_app. right. left. reflexivity.
  - intros C tljit all. unfold evalState.
    rewrite stdlib_run. reflexivity.
Qed.

(** * Part III: further properties of the library *)

(** ** [abs], [minimum], [maximum] *)


Lemma maximum_int (x y : Z) : maximum x y = Z.max x y.
Proof.
  unfold maximum, tlcore.where_. cbn [greater_than Compare_int].
  rewrite Z.gtb_ltb. destruct (Z.ltb_spec y x); lia.
Qed.

(** X2: on integers [minimum] and [maximum] are the least and the
    greatest of their operands; there the order of the operands does
    not matter, and the two results are the two operands:
    their sum is [x + y] and [minimum(x, y) <= maximum(x, y)]. *)
Theorem minimum_maximum_on_integers (x y : Z) :
  minimum x y = Z.min x y /\
  maximum x y = Z.max x y /\
  minimum x y = minimum y x /\
  maximum x y = maximum y x /\
  minimum x y + maximum x y = x + y /\
  minimum x y <= maximum x y.
Proof.
  rewrite !minimum_int, !maximum_int. lia.
Qed.

(** X15: in every backend whose [>] is [<] with the operands swapped,
    [minimum(y, x)] and [maximum(x, y)] are the two operands, in one
    order or the other; but when neither operand is less than the
    other (a tie, or an unordered pair), [minimum(x, y)] and
    [maximum(x, y)] both return the second operand [y]. *)
Theorem minimum_maximum_compare_exchange {V : Type} (backend : Compare V) (x y : V) :
  (forall a b : V, greater_than a b = less_than b a) ->
  ((minimum y x = x /\ maximum x y = y) \/
   (minimum y x = y /\ maximum x y = x)) /\
  (less_than x y = false -> less_than y x = false ->
   minimum x y = y /\ maximum x y = y).
Proof.
  intros Hmirror. unfold minimum, maximum, tlcore.where_.
  rewrite Hmirror. split.
  - destruct (less_than y x); [right | left]; split; reflexivity.
  - intros -> ->. split; reflexivity.
Qed.

Lemma minimum_maximum_compare_exchange_witness :
  (forall a b : Z, greater_than a b = less_than b a) /\
  ((minimum 5 3 = 3 /\ maximum 3 5 = 5) \/
   (minimum 5 3 = 5 /\ maximum 3 5 = 3)).
Proof.
  split; [intros a b; apply Z.gtb_ltb |].
  apply (minimum_maximum_compare_exchange Compare_int 3 5).
  intros a b. apply Z.gtb_ltb.
Defined.

(** ** [cdiv] *)

(** X3: for a divisor [div > 0], [cdiv(x, div)] is the floor quotient
    when [div] divides [x] and the floor quotient plus one otherwise;
    it does not decrease when [x] grows. *)
Theorem cdiv_floor_relation (x y div : Z) :
  0 < div ->
  cdiv x div = inr (if x mod div =? 0 then x / div else x / div + 1) /\
  (x <= y ->
   exists q q', cdiv x div = inr q /\ cdiv y div = inr q' /\ q <= q').
Proof.
  intros Hd.
  assert (Hc : forall z, cdiv z div = inr ((z + div - 1) / div)).
  { intros z. unfold cdiv, floordiv.
    destruct (Z.eqb_spec div 0); [lia | reflexivity]. }
  split.
  - rewrite Hc. f_equal.
    pose proof (Z.div_mod x div) as Hx.
    pose proof (Z.mod_pos_bound x div Hd) as Hr.
    destruct (Z.eqb_spec (x mod div) 0) as [Hz | Hnz].
    + symmetry. apply (Z.div_unique _ div _ (div - 1)); lia.
    + symmetry. apply (Z.div_unique _ div _ (x mod div - 1)); lia.
  - intros Hxy. exists ((x + div - 1) / div), ((y + div - 1) / div).
    repeat split; try apply Hc.
    apply Z.div_le_mono; lia.
Qed.

Lemma cdiv_floor_relation_witness :
  0 < 4 /\ cdiv 9 4 = inr (if 9 mod 4 =? 0 then 9 / 4 else 9 / 4 + 1).
Proof.
  split; [lia |].
  apply (cdiv_floor_relation 9 9 4). lia.
Defined.

(** X4: for a divisor [div < 0], [cdiv(x, div)] does not fail, and it
    is the ceiling of [x / div] only when the remainder of [x] by
    [-div] is at least 2; otherwise it exceeds the ceiling, by one or
    two. *)
Theorem cdiv_negative_divisor_overshoots (x div : Z) :
  div < 0 ->
  exists q, cdiv x div = inr q /\
    Qceiling ((- x) # Z.to_pos (- div)) <= q <=
      Qceiling ((- x) # Z.to_pos (- div)) + 2 /\
    (q = Qceiling ((- x) # Z.to_pos (- div)) <-> 2 <= x mod (- div)).
Proof.
  intros Hd.
  exists ((x + div - 1) / div). split.
  { unfold cdiv, floordiv.
    destruct (Z.eqb_spec div 0); [lia | reflexivity]. }
  unfold Qceiling, Qfloor, Qopp. cbn [Qnum Qden].
  rewrite Z2Pos.id, Z.opp_involutive by lia.
  set (e := - div) in *.
  replace ((x + div - 1) / div) with ((e + 1 - x) / e).
  2:{ rewrite <- (Z.div_opp_opp (x + div - 1) div) by lia.
      f_equal. unfold e. lia. }
  assert (He : 0 < e) by (unfold e; lia).
  pose proof (Z.div_mod x e) as Hx.
  pose proof (Z.mod_pos_bound x e He) as Hr.
  pose proof (Z.div_mod (e + 1 - x) e) as Hq.
  pose proof (Z.mod_pos_bound (e + 1 - x) e He) as Hr'.
  set (q0 := x / e) in *. set (r := x mod e) in *.
  set (q := (e + 1 - x) / e) in *. set (r' := (e + 1 - x) mod e) in *.
  assert (Hrel : e * (q + q0 - 1) = 1 - r - r') by lia.
  assert (Hlo : 0 <= q + q0) by nia.
  assert (Hhi : q + q0 <= 2) by nia.
  split; [lia |].
  split.
  - intros Heq. assert (q + q0 = 0) by lia. nia.
  - intros Hr2. assert (q + q0 = 0) by nia. lia.
Qed.

Lemma cdiv_negative_divisor_overshoots_witness :
  -2 < 0 /\
  exists q, cdiv 7 (-2) = inr q /\
    Qceiling ((- 7) # Z.to_pos (- -2)) <= q <=
      Qceiling ((- 7) # Z.to_pos (- -2)) + 2 /\
    (q = Qceiling ((- 7) # Z.to_pos (- -2)) <-> 2 <= 7 mod (- -2)).
Proof.
  split; [lia |].
  apply (cdiv_negative_divisor_overshoots 7 (-2)). lia.
Defined.

(** ** The layout that [swizzle2d] produces *)

Lemma reference_row_in_group (i j size_i size_j size_g : Z) :
  0 < size_j -> 0 < size_g ->
  0 <= i < size_i -> 0 <= j < size_j ->
  fst (swizzle2d_reference i j size_i size_j size_g) / size_g = i / size_g.
Proof.
  intros Hsj Hsg Hi Hj.
  rewrite reference_unfold by assumption. cbn [fst].
  pose proof (eff_g_bounds size_i size_g Hsg i Hi) as He.
  pose proof (Z.mod_pos_bound i size_g Hsg) as Hm.
  pose proof (Z.mod_pos_bound (i * size_j + j) (eff_g size_i size_g i)) as Hr.
  rewrite Z.div_add_l by lia.
  rewrite (Z.div_small (_ mod _) size_g) by lia. lia.
Qed.

(** X5: for positive sizes [swizzle2d] permutes the cells of each group
    of rows among themselves: the image of a cell lies in the group of
    rows of that cell, and every cell is the image of a cell of its own
    group.  This holds for the last group too when it has fewer than
    [size_g] rows. *)
Theorem swizzle2d_permutes_each_group (size_i size_j size_g : Z) :
  0 < size_i -> 0 < size_j -> 0 < size_g ->
  (forall i j, in_grid size_i size_j (i, j) ->
     exists p, swizzle2d i j size_i size_j size_g = inr p /\
               in_grid size_i size_j p /\
               fst p / size_g = i / size_g) /\
  (forall p, in_grid size_i size_j p ->
     exists i j, in_grid size_i size_j (i, j) /\
                 i / size_g = fst p / size_g /\
                 swizzle2d i j size_i size_j size_g = inr p).
Proof.
  intros Hsi Hsj Hsg. split.
  - intros i j [Hi Hj]. cbn [fst snd] in Hi, Hj.
    exists (swizzle2d_reference i j size_i size_j size_g). repeat split.
    + apply swizzle2d_defined; assumption.
    + apply reference_in_grid; assumption.
    + apply reference_in_grid; assumption.
    + apply reference_in_grid; assumption.
    + apply reference_in_grid; assumption.
    + apply reference_row_in_group; assumption.
  - intros [a b] [Ha Hb]. cbn [fst snd] in Ha, Hb.
    destruct (reference_surjective size_i size_j size_g) with (a := a) (b := b)
      as (i & j & [Hi Hj] & Heq); try assumption.
    exists i, j. split; [split; assumption |]. split.
    + rewrite <- (reference_row_in_group i j size_i size_j size_g)
        by assumption.
      now rewrite Heq.
    + rewrite swizzle2d_defined by assumption. now rewrite Heq.
Qed.

Lemma swizzle2d_permutes_each_group_witness :
  (0 < 5 /\ 0 < 3 /\ 0 < 2) /\
  (forall p, in_grid 5 3 p ->
     exists i j, in_grid 5 3 (i, j) /\ i / 2 = fst p / 2 /\
                 swizzle2d i j 5 3 2 = inr p).
Proof.
  split; [lia |].
  apply (swizzle2d_permutes_each_group 5 3 2); lia.
Defined.

(** X6: in a group that has all its [size_g] rows, the position of the
    image read down the columns of the group is the position of the
    cell read along the rows of the group: with [off] the first row of
    the group, [(new_i - off) + new_j * size_g] equals
    [(i - off) * size_j + j]. *)
Theorem swizzle2d_column_major_in_full_group (i j size_i size_j size_g : Z) :
  0 < size_j -> 0 < size_g ->
  0 <= i -> 0 <= j < size_j ->
  i / size_g * size_g + size_g <= size_i ->
  exists new_i new_j,
    swizzle2d i j size_i size_j size_g = inr (new_i, new_j) /\
    0 <= new_i - i / size_g * size_g < size_g /\
    0 <= new_j < size_j /\
    (new_i - i / size_g * size_g) + new_j * size_g =
      (i - i / size_g * size_g) * size_j + j.
Proof.
  intros Hsj Hsg Hi0 Hj Hfull.
  pose proof (Z.div_mod i size_g) as Hd.
  pose proof (Z.mod_pos_bound i size_g Hsg) as Hm.
  assert (Hi : 0 <= i < size_i) by lia.
  rewrite swizzle2d_defined by lia.
  rewrite reference_unfold by lia.
  assert (He : eff_g size_i size_g i = size_g) by (unfold eff_g; lia).
  rewrite He.
  set (off := i / size_g * size_g) in *.
  set (l := i mod size_g * size_j + j).
  assert (Hl : 0 <= l < size_g * size_j) by (unfold l; nia).
  assert (Hflat : (i * size_j + j) mod size_g = l mod size_g).
  { replace (i * size_j + j) with (l + i / size_g * size_j * size_g)
      by (unfold l; nia).
    apply Z.mod_add. lia. }
  rewrite Hflat.
  pose proof (Z.div_mod l size_g) as Hdl.
  pose proof (Z.mod_pos_bound l size_g Hsg) as Hml.
  eexists. eexists. split; [reflexivity |].
  repeat split; try lia.
  - apply Z.div_pos; lia.
  - apply Z.div_lt_upper_bound; lia.
Qed.

Lemma swizzle2d_column_major_in_full_group_witness :
  (0 < 4 /\ 0 < 2 /\ 0 <= 1 /\ 0 <= 0 < 4 /\ 1 / 2 * 2 + 2 <= 4) /\
  exists new_i new_j,
    swizzle2d 1 0 4 4 2 = inr (new_i, new_j) /\
    0 <= new_i - 1 / 2 * 2 < 2 /\
    0 <= new_j < 4 /\
    (new_i - 1 / 2 * 2) + new_j * 2 = (1 - 1 / 2 * 2) * 4 + 0.
Proof.
  split; [cbn; lia |].
  apply (swizzle2d_column_major_in_full_group 1 0 4 4 2); cbn; lia.
Defined.

(** X7: when one group holds all the rows ([size_i <= size_g]), the
    image of a cell is its flat index split by the number of rows:
    [(ij % size_i, ij // size_i)] with [ij = i * size_j + j], so the
    cells are laid out down the columns of the whole grid. *)
Theorem swizzle2d_single_group (i j size_i size_j size_g : Z) :
  0 < size_j ->
  0 <= i < size_i -> 0 <= j < size_j ->
  size_i <= size_g ->
  swizzle2d i j size_i size_j size_g =
    inr ((i * size_j + j) mod size_i, (i * size_j + j) / size_i).
Proof.
  intros Hsj Hi Hj Hg.
  rewrite swizzle2d_defined by lia.
  rewrite reference_unfold by lia.
  unfold eff_g.
  rewrite (Z.div_small i size_g), (Z.mod_small i size_g) by lia.
  replace (Z.min (size_i - 0 * size_g) size_g) with size_i by lia.
  reflexivity.
Qed.

Lemma swizzle2d_single_group_witness :
  (0 < 3 /\ 0 <= 1 < 2 /\ 0 <= 2 < 3 /\ 2 <= 8) /\
  swizzle2d 1 2 2 3 8 = inr ((1 * 3 + 2) mod 2, (1 * 3 + 2) / 2).
Proof.
  split; [lia |].
  apply (swizzle2d_single_group 1 2 2 3 8); lia.
Defined.

(** X8: two cells side by side in a row, [(i, j)] and [(i, j + 1)],
    have images one row apart inside the group, cyclically: with [off]
    the first row of the group and [e] its number of rows, the second
    image is at row [off + (new_i - off + 1) % e], in the column of the
    first image or in the next one. *)
Theorem swizzle2d_row_neighbours (i j size_i size_j size_g : Z) :
  0 < size_j -> 0 < size_g ->
  0 <= i < size_i -> 0 <= j -> j + 1 < size_j ->
  exists new_i new_j new_i' new_j',
    swizzle2d i j size_i size_j size_g = inr (new_i, new_j) /\
    swizzle2d i (j + 1) size_i size_j size_g = inr (new_i', new_j') /\
    new_i' = i / size_g * size_g +
             (new_i - i / size_g * size_g + 1) mod eff_g size_i size_g i /\
    (new_j' = new_j \/ new_j' = new_j + 1).
Proof.
  intros Hsj Hsg Hi Hj0 Hj1.
  rewrite !swizzle2d_defined by lia.
  rewrite !reference_unfold by lia.
  pose proof (eff_g_bounds size_i size_g Hsg i Hi) as He.
  pose proof (Z.mod_pos_bound i size_g Hsg) as Hm.
  set (e := eff_g size_i size_g i) in *.
  set (off := i / size_g * size_g).
  set (l := i mod size_g * size_j + j).
  do 4 eexists. split; [reflexivity |]. split; [reflexivity |]. split.
  - f_equal.
    replace (off + (i * size_j + j) mod e - off + 1)
      with ((i * size_j + j) mod e + 1) by lia.
    rewrite Z.add_mod_idemp_l by lia.
    f_equal. lia.
  - replace (i mod size_g * size_j + (j + 1)) with (l + 1) by (unfold l; lia).
    pose proof (Z.div_mod l e) as Hl.
    pose proof (Z.div_mod (l + 1) e) as Hl1.
    pose proof (Z.mod_pos_bound l e) as Hr.
    pose proof (Z.mod_pos_bound (l + 1) e) as Hr1.
    nia.
Qed.

Lemma swizzle2d_row_neighbours_witness :
  (0 < 3 /\ 0 < 2 /\ 0 <= 4 < 5 /\ 0 <= 0 /\ 0 + 1 < 3) /\
  exists new_i new_j new_i' new_j',
    swizzle2d 4 0 5 3 2 = inr (new_i, new_j) /\
    swizzle2d 4 (0 + 1) 5 3 2 = inr (new_i', new_j') /\
    new_i' = 4 / 2 * 2 + (new_i - 4 / 2 * 2 + 1) mod eff_g 5 2 4 /\
    (new_j' = new_j \/ new_j' = new_j + 1).
Proof.
  split; [lia |].
  apply (swizzle2d_row_neighbours 4 0 5 3 2); lia.
Defined.

(** ** [swizzle2d] just below the grid *)

(** X9: when [size_g] divides [size_i], a row index in the group that
    would follow the last one, [size_i <= i < size_i + size_g], makes
    [swizzle2d] fail with [ZeroDivisionError]: that group has no rows
    left, line 136 rebinds [size_g] to 0 and line 138 takes a remainder
    by it. *)
Theorem swizzle2d_row_past_the_grid (i j size_i size_j size_g : Z) :
  0 < size_j -> 0 < size_g ->
  size_i mod size_g = 0 ->
  size_i <= i < size_i + size_g -> 0 <= j < size_j ->
  swizzle2d i j size_i size_j size_g = inl ZeroDivisionError.
Proof.
  intros Hsj Hsg Hdiv Hi Hj.
  unfold swizzle2d, floordiv, pymod.
  assert (Hgj : (size_g * size_j =? 0) = false) by (apply Z.eqb_neq; nia).
  rewrite Hgj. cbn [bind ret Monad_either].
  rewrite minimum_int, group_of_flat by assumption.
  assert (Hgroup : i / size_g = size_i / size_g).
  { pose proof (Z.div_mod size_i size_g) as Hd.
    symmetry. apply (Z.div_unique i size_g _ (i - size_i)); lia. }
  assert (Hoff : i / size_g * size_g = size_i).
  { rewrite Hgroup. pose proof (Z.div_mod size_i size_g). lia. }
  rewrite Hoff.
  replace (Z.min (size_i - size_i) size_g) with 0 by lia.
  reflexivity.
Qed.

Lemma swizzle2d_row_past_the_grid_witness :
  (0 < 4 /\ 0 < 2 /\ 4 mod 2 = 0 /\ 4 <= 5 < 4 + 2 /\ 0 <= 3 < 4) /\
  swizzle2d 5 3 4 4 2 = inl ZeroDivisionError.
Proof.
  split; [cbn; lia |].
  apply (swizzle2d_row_past_the_grid 5 3 4 4 2); cbn; lia.
Defined.

(** ** The list [__all__] *)

(** X10: [export] does not look at what [__all__] holds: decorating an
    object that is already registered adds a second entry for it. *)
Theorem export_keeps_duplicates {C : Type} (func : object C) (all : list (object C)) :
  In func all -> ~ NoDup (execState (export func) all).
Proof.
  intros Hin Hnodup. unfold execState in Hnodup.
  rewrite export_run in Hnodup. cbn [snd] in Hnodup.
  apply NoDup_remove_2 in Hnodup.
  apply Hnodup. rewrite app_nil_r. exact Hin.
Qed.

Lemma export_keeps_duplicates_witness :
  In (Callable def_abs) [Callable def_abs] /\
  ~ NoDup (execState (export (Callable def_abs)) [Callable def_abs]).
Proof.
  split; [left; reflexivity |].
  apply (export_keeps_duplicates (Callable def_abs) [Callable def_abs]).
  left. reflexivity.
Defined.

Lemma NoDup_declared_names : NoDup (map __name__ declared).
Proof.
  cbn. repeat constructor; cbn; intuition discriminate.
Qed.

(** X11: the module body registers no function twice: the names it
    binds are pairwise distinct, and so are the entries of [__all__]
    when the tracing wrapper sends distinct functions to distinct
    callables.  As line 14 creates the list anew, what [__all__] held
    before does not matter, and running the body again leaves the same
    nine entries. *)
Theorem stdlib_registers_each_function_once
    {C : Type} (tljit : function -> C) (all all' : list (object C)) :
  (forall f g, tljit f = tljit g -> f = g) ->
  NoDup (execState (stdlib C tljit) all) /\
  NoDup (map fst (evalState (stdlib C tljit) all)) /\
  execState (stdlib C tljit) all = execState (stdlib C tljit) all' /\
  execState (stdlib C tljit ;; stdlib C tljit) all =
    execState (stdlib C tljit) all /\
  List.length (execState (stdlib C tljit) all) = 9%nat.
Proof.
  intros Hinj.
  assert (Hdecl : NoDup declared)
    by exact (NoDup_map_inv __name__ declared NoDup_declared_names).
  repeat split; try reflexivity.
  - unfold execState. rewrite stdlib_run. cbn [snd].
    apply NoDup_map_NoDup_ForallPairs; [| exact Hdecl].
    intros f g _ _ Heq. injection Heq as Heq. now apply Hinj.
  - exact NoDup_declared_names.
Qed.

Lemma stdlib_registers_each_function_once_witness :
  (forall f g : function, (fun h => h) f = (fun h => h) g -> f = g) /\
  NoDup (execState (stdlib function (fun h => h)) []).
Proof.
  split; [intros f g Heq; exact Heq |].
  apply (stdlib_registers_each_function_once (fun h => h) [] []).
  intros f g Heq. exact Heq.
Defined.

(** ** The docstring decorator *)

Lemma list_ascii_of_string_append (a b : string) :
  list_ascii_of_string (a ++ b)%string =
    (list_ascii_of_string a ++ list_ascii_of_string b)%list.
Proof.
  induction a as [| c a IH]; cbn; [reflexivity | now rewrite IH].
Qed.

Lemma list_ascii_of_string_inj (a b : string) :
  list_ascii_of_string a = list_ascii_of_string b -> a = b.
Proof.
  intros Heq.
  rewrite <- (string_of_list_ascii_of_string a),
          <- (string_of_list_ascii_of_string b).
  now rewrite Heq.
Qed.

Lemma append_between_inj (head tail a b : string) :
  (head ++ a ++ tail)%string = (head ++ b ++ tail)%string -> a = b.
Proof.
  intros Heq. apply (f_equal list_ascii_of_string) in Heq.
  rewrite !list_ascii_of_string_append in Heq.
  apply app_inv_head, app_inv_tail in Heq.
  now apply list_ascii_of_string_inj.
Qed.

(** X12: [_add_math_1arg_docstr(name)] keeps the name of the function
    it decorates, gives it a docstring whatever it had before (an
    earlier docstring is replaced), and docstrings made for different
    names are different. *)
Theorem _add_math_1arg_docstr_sets_docstring (name name' : string) (f g : function) :
  __name__ (_add_math_1arg_docstr name f) = __name__ f /\
  __doc__ (_add_math_1arg_docstr name f) <> None /\
  __doc__ (_add_math_1arg_docstr name f) =
    __doc__ (_add_math_1arg_docstr name g) /\
  _add_math_1arg_docstr name (_add_math_1arg_docstr name' f) =
    _add_math_1arg_docstr name f /\
  (__doc__ (_add_math_1arg_docstr name f) =
     __doc__ (_add_math_1arg_docstr name' g) -> name = name').
Proof.
  repeat split; try reflexivity.
  - discriminate.
  - unfold _add_math_1arg_docstr. cbn [__doc__].
    intros Heq. apply (f_equal (fun d => match d with
                                       | Some s => s
                                       | None => EmptyString
                                       end)) in Heq.
    exact (append_between_inj _ _ _ _ Heq).
Qed.

(** ** [ravel] and [zeros_like] *)

(** X13: over any primitive layer in which [reshape] gives the value
    the shape it is asked for and [numel] is the product of the
    dimensions, [ravel(x)] has the single dimension [numel(x)], it has
    as many elements as [x], and flattening twice gives the shape of
    flattening once. *)
Theorem ravel_flattens {T D : Type} (ops : tlcore.Tensor T D) (x : T) :
  (forall (y : T) (s : list Z), tlcore.shape (tlcore.reshape y s) = s) ->
  (forall y : T, tlcore.numel y = fold_right Z.mul 1 (tlcore.shape y)) ->
  tlcore.shape (ravel x) = [tlcore.numel x] /\
  tlcore.numel (ravel x) = tlcore.numel x /\
  tlcore.shape (ravel (ravel x)) = tlcore.shape (ravel x).
Proof.
  intros Hreshape Hnumel.
  assert (Hshape : forall y, tlcore.shape (ravel y) = [tlcore.numel y])
    by (intros y; unfold ravel; apply Hreshape).
  assert (Hsame : forall y, tlcore.numel (ravel y) = tlcore.numel y).
  { intros y. rewrite (Hnumel (ravel y)), Hshape. cbn [fold_right]. lia. }
  repeat split.
  - apply Hshape.
  - apply Hsame.
  - rewrite !Hshape. now rewrite Hsame.
Qed.

Lemma ravel_flattens_witness :
  (forall (y : block) (s : list Z), tlcore.shape (tlcore.reshape y s) = s) /\
  (forall y : block, tlcore.numel y = fold_right Z.mul 1 (tlcore.shape y)) /\
  tlcore.shape (ravel {| block_shape := [2; 3]; block_dtype := "float32" |})
    = [6].
Proof.
  split; [intros y s; reflexivity |].
  split; [intros y; reflexivity |].
  apply (ravel_flattens Tensor_block
           {| block_shape := [2; 3]; block_dtype := "float32" |}).
  - intros y s. reflexivity.
  - intros y. reflexivity.
Defined.

(** X14: [zeros_like] looks only at the shape and the element type of
    its input; over any primitive layer in which [zeros] gives the
    value the shape and the element type it is asked for, the result
    has the shape and the element type of the input, and applying
    [zeros_like] to it gives the same result again. *)
Theorem zeros_like_keeps_shape_and_dtype {T D : Type} (ops : tlcore.Tensor T D) (x y : T) :
  (forall (s : list Z) (d : D),
     tlcore.shape (tlcore.zeros s d : T) = s /\
     tlcore.dtype (tlcore.zeros s d : T) = d) ->
  (tlcore.shape x = tlcore.shape y -> tlcore.dtype x = tlcore.dtype y ->
   zeros_like x = zeros_like y) /\
  tlcore.shape (zeros_like x) = tlcore.shape x /\
  tlcore.dtype (zeros_like x) = tlcore.dtype x /\
  zeros_like (zeros_like x) = zeros_like x.
Proof.
  intros Hzeros. unfold zeros_like.
  destruct (Hzeros (tlcore.shape x) (tlcore.dtype x)) as [Hs Hd].
  repeat split.
  - intros -> ->. reflexivity.
  - exact Hs.
  - exact Hd.
  - now rewrite Hs, Hd.
Qed.

Lemma zeros_like_keeps_shape_and_dtype_witness :
  (forall (s : list Z) (d : string),
     tlcore.shape (tlcore.zeros s d : block) = s /\
     tlcore.dtype (tlcore.zeros s d : block) = d) /\
  zeros_like (zeros_like {| block_shape := [2; 3]; block_dtype := "float32" |}) =
    zeros_like {| block_shape := [2; 3]; block_dtype := "float32" |}.
Proof.
  split; [intros s d; split; reflexivity |].
  apply (zeros_like_keeps_shape_and_dtype Tensor_block
           {| block_shape := [2; 3]; block_dtype := "float32" |}
           {| block_shape := [2; 3]; block_dtype := "float32" |}).
  intros s d. split; reflexivity.
Defined.
